(** * Event<Args...>: a shallow embedding of event.hpp

    The class keeps a [std::unordered_map<Identifier, Handler>] and offers
    [bind] / [unbind] / [operator+=] / [hasSubscriber] / [fire].  The table is
    a [gmap Z Handler]; the methods are computations in a small state monad
    over the event object and whatever lives outside it; handlers are the
    closure objects a [std::function] wraps, run by code that is a parameter
    of the development. *)

From stdpp Require Import base decidable option list numbers strings gmap fin_maps.

Local Open Scope Z_scope.

(** ** Unsigned 64-bit arithmetic ([uint64_t]) *)

Definition u64_modulus : Z := 2 ^ 64.

Definition wrap64 (z : Z) : Z := z mod u64_modulus.

Definition u64_mul (a b : Z) : Z := wrap64 (a * b).

Definition u64_add (a b : Z) : Z := wrap64 (a + b).

(** ** enum class EventFlag *)

Inductive EventFlag : Set :=
| DEFAULT
| ONLY_UNIQUE.

Definition EventFlag_value (f : EventFlag) : Z :=
  match f with
  | DEFAULT => 0
  | ONLY_UNIQUE => 1
  end.

#[global] Instance EventFlag_eq_dec : EqDecision EventFlag.
Proof. solve_decision. Defined.

(** ** The parts of std::unordered_map the class uses

    [find] answers [Some] for an iterator to the entry and [None] for
    [end()]; [insert] of a pair leaves the container alone when the key is
    already there; [erase] takes the iterator [find] produced. *)

Module umap.

Definition find {V : Type} (a : Z) (t : gmap Z V) : option V := t !! a.

Definition insert {V : Type} (a : Z) (v : V) (t : gmap Z V) : gmap Z V :=
  match t !! a with
  | Some _ => t
  | None => <[a:=v]> t
  end.

Definition erase {V : Type} (a : Z) (t : gmap Z V) : gmap Z V := delete a t.

End umap.

(** ** Address conversion *)

(** [AddressCast<T>(x).address]: the 64-bit word read back from the union.
    A pointer is handed over as its address word, a pointer to member as
    the leading word of its representation. *)
Definition AddressCast (x : Z) : Z := wrap64 x.

(** The addresses an object of a user program can sit at: the pointers the
    program hands to [bind] and [unbind] have the top bit clear. *)
Definition object_address (p : Z) : Prop := 0 <= p < 2 ^ 63.

(** [_identify(_class, _member)] *)
Definition _identify (_class _member : Z) : Z :=
  u64_add (u64_mul (AddressCast _class) 10) (AddressCast _member).

(** ** std::bind placeholders *)

Definition _1 : nat := 1%nat.
Definition _2 : nat := 2%nat.
Definition _3 : nat := 3%nat.
Definition _4 : nat := 4%nat.

(** The actual arguments a bind expression forwards: placeholder [_i]
    stands for the i-th argument of the call. *)
Definition forwarded {V : Type} (placeholders : list nat) (e : list V) : list V :=
  omap (fun i => e !! Nat.pred i) placeholders.

(** Which of the five [bind] / [unbind] overloads a pointer to member
    selects: the one for its number of parameters. *)
Inductive Overload : Set :=
| Nullary
| Unary
| Binary
| Ternary
| Quaternary.

Definition parameters (k : Overload) : nat :=
  match k with
  | Nullary => 0
  | Unary => 1
  | Binary => 2
  | Ternary => 3
  | Quaternary => 4
  end%nat.

(** The entries of a walk or a journal that sit under key [a]. *)
Definition at_key (a : Z) {X : Type} (l : list (Z * X)) : list (Z * X) :=
  filter (fun p => fst p = a) l.

(** ** static constexpr auto _MAX_EVENT_ARGS = 4 *)

Definition _MAX_EVENT_ARGS : nat := 4%nat.

(** [static_assert(cond, msg)]: a class whose assertion fails has no
    instances. *)
Definition static_assert (cond : bool) : Prop := Is_true cond.

Section Event.

(** [Ty] names the C++ types of the parameter pack, [Value] is what an
    argument evaluates to, [Lam] are the closure objects given to
    [operator+=], [W] is the program state outside the event object. *)
Context {Ty Value Lam W : Type}.

(** template<class... Args> *)
Variable Args : list Ty.

(** [Handler = std::function<void(Args...)>], by what it wraps. *)
Inductive Handler : Type :=
| BindExpr (member instance : Z) (placeholders : list nat)
| Closure (lambda : Lam).

(** std::bind(member, instance, placeholders...) *)
Definition std_bind (member instance : Z) (placeholders : list nat) : Handler :=
  BindExpr member instance placeholders.

(** The data members of one [Event<Args...>] object, together with the
    evidence that the class-level [static_assert] went through. *)
Record Event : Type := mkEvent {
  subscribers : gmap Z Handler;
  arity_checked : static_assert (bool_decide (length Args ≤ _MAX_EVENT_ARGS)%nat)
}.

Record Machine : Type := mkMachine {
  event : Event;
  outside : W
}.

(** Methods run in a state monad over the machine. *)
Definition M (A : Type) : Type := Machine -> A * Machine.

#[local] Instance M_ret : MRet M := fun A x s => (x, s).
#[local] Instance M_bind : MBind M :=
  fun A B f c s => let r := c s in f (fst r) (snd r).

Definition exec {A : Type} (c : M A) (s : Machine) : Machine := snd (c s).
Definition result {A : Type} (c : M A) (s : Machine) : A := fst (c s).

Definition get_subscribers : M (gmap Z Handler) :=
  fun s => (subscribers (event s), s).

Definition update_subscribers (f : gmap Z Handler -> gmap Z Handler) : M unit :=
  fun s =>
    (tt, {| event := {| subscribers := f (subscribers (event s));
                        arity_checked := arity_checked (event s) |};
            outside := outside s |}).

(** Code outside the class: the body of a member function run on a
    receiver, and the body of a closure.  Bodies always return: a handler
    that throws, which would end the loop of [fire] early, is outside this
    model. *)
Variable member_call : Z -> Z -> list Value -> M unit.
Variable closure_call : Lam -> list Value -> M unit.

(** The order in which a range-for walks the container.  It is taken as a
    function of the entries; the bucket layout that insertion history gives
    the real container is not kept, so two machines with the same entries
    are one machine here, and statements about order are about [walk]. *)
Variable walk : gmap Z Handler -> list (Z * Handler).

(** [h(e...)] *)
Definition call (h : Handler) (e : list Value) : M unit :=
  match h with
  | BindExpr member instance placeholders =>
      member_call member instance (forwarded placeholders e)
  | Closure lambda => closure_call lambda e
  end.

(** bool hasSubscriber(Address a) const *)
Definition hasSubscriber (a : Z) : M bool :=
  t ← get_subscribers;
  mret (bool_decide (umap.find a t ≠ None)).

(** void _addToList(Address a, Handler h, EventFlag flag) *)
Definition _addToList (a : Z) (h : Handler) (flag : EventFlag) : M unit :=
  skip ← (if decide (flag = ONLY_UNIQUE) then hasSubscriber a else mret false);
  if skip : bool then mret tt
  else update_subscribers (umap.insert a h).

(** void _removeFromList(Address a) *)
Definition _removeFromList (a : Z) : M unit :=
  t ← get_subscribers;
  match umap.find a t with
  | Some _ => update_subscribers (umap.erase a)
  | None => mret tt
  end.

(** void operator+=(Handler lambda).  [slot] is the address of the
    parameter object [lambda]; [zero_word] is the word the union gives back
    for the [int] literal 0. *)
Definition operator_plus_eq (slot zero_word : Z) (lambda : Handler) : M unit :=
  _addToList (_identify slot zero_word) lambda DEFAULT.

(** What one pass of the loop body did: key and handler of the entry and
    the arguments the handler was called with. *)
Definition Invocation : Type := Z * Handler * list Value.

(** for (auto subscriber : snapshot) subscriber.second(e...); the list of
    calls made is kept as a ghost result. *)
Fixpoint for_each (snapshot : list (Z * Handler)) (e : list Value)
  : M (list Invocation) :=
  match snapshot with
  | [] => mret []
  | subscriber :: rest =>
      _ ← call (snd subscriber) e;
      journal ← for_each rest e;
      mret ((fst subscriber, snd subscriber, e) :: journal)
  end.

(** void fire(Args... e).  The walk is taken when the loop starts, which
    is what the loop does as long as no handler touches the container. *)
Definition fire (e : list Value) : M (list Invocation) :=
  t ← get_subscribers;
  for_each (walk t) e.

(** void operator()(Args... e) *)
Definition operator_call (e : list Value) : M (list Invocation) := fire e.

(** The five overloads of [bind]. *)
Definition bind (k : Overload) (member instance : Z) (flag : EventFlag) : M unit :=
  match k with
  | Nullary =>
      _addToList (_identify instance member) (std_bind member instance []) flag
  | Unary =>
      _addToList (_identify instance member) (std_bind member instance [_1]) flag
  | Binary =>
      _addToList (_identify instance member) (std_bind member instance [_1; _2]) flag
  | Ternary =>
      _addToList (_identify instance member)
                 (std_bind member instance [_1; _2; _3]) flag
  | Quaternary =>
      _addToList (_identify instance member)
                 (std_bind member instance [_1; _2; _3; _4]) flag
  end.

(** The five overloads of [unbind]. *)
Definition unbind (k : Overload) (member instance : Z) : M unit :=
  match k with
  | Nullary => _removeFromList (_identify instance member)
  | Unary => _removeFromList (_identify instance member)
  | Binary => _removeFromList (_identify instance member)
  | Ternary => _removeFromList (_identify instance member)
  | Quaternary => _removeFromList (_identify instance member)
  end.

(** The placeholders each [bind] overload hands to [std::bind], and the
    handler it registers. *)
Definition placeholders_of (k : Overload) : list nat :=
  match k with
  | Nullary => []
  | Unary => [_1]
  | Binary => [_1; _2]
  | Ternary => [_1; _2; _3]
  | Quaternary => [_1; _2; _3; _4]
  end.

Definition bound_handler (k : Overload) (member instance : Z) : Handler :=
  std_bind member instance (placeholders_of k).

(** Client code: a straight-line sequence of calls on the event. *)
Inductive Op : Type :=
| DoBind (k : Overload) (member instance : Z) (flag : EventFlag)
| DoUnbind (k : Overload) (member instance : Z)
| DoSubscribe (slot zero_word : Z) (lambda : Handler)
| DoQuery (a : Z)
| DoFire (e : list Value).

Definition perform (o : Op) : M unit :=
  match o with
  | DoBind k member instance flag => bind k member instance flag
  | DoUnbind k member instance => unbind k member instance
  | DoSubscribe slot zero_word lambda => operator_plus_eq slot zero_word lambda
  | DoQuery a => _ ← hasSubscriber a; mret tt
  | DoFire e => _ ← fire e; mret tt
  end.

Fixpoint run (ops : list Op) : M unit :=
  match ops with
  | [] => mret tt
  | o :: rest => _ ← perform o; run rest
  end.

(** The calls a journal records for the entry keyed [a]. *)
Definition journal_at (a : Z) (journal : list Invocation) : list Invocation :=
  filter (fun i => fst (fst i) = a) journal.

(** Handlers that leave the event object alone. *)
Definition keeps_event (h : Handler) : Prop :=
  forall e s, event (exec (call h e) s) = event s.

(** An operation that takes the entry keyed [a] out of the table. *)
Definition removes (a : Z) (o : Op) : Prop :=
  match o with
  | DoUnbind _ member instance => _identify instance member = a
  | _ => False
  end.

End Event.

Arguments BindExpr {Lam} member instance placeholders.
Arguments Closure {Lam} lambda.
Arguments mkMachine {Ty Lam W Args} event outside.
Arguments mkEvent {Ty Lam Args} subscribers arity_checked.
Arguments subscribers {Ty Lam Args} _.
Arguments event {Ty Lam W Args} _.
Arguments outside {Ty Lam W Args} _.
Arguments exec {Ty Lam W Args A} c s.
Arguments result {Ty Lam W Args A} c s.

(** ** A concrete program to run the class on

    One-argument events over integers; the world outside the event is the
    list of member calls made so far, which every member body extends. *)
Module Demo.

Definition Sig : list unit := [tt].

Definition World : Type := list (Z * Z * list Z).

Definition member_call (member instance : Z) (actuals : list Z)
  : M (Lam:=unit) (W:=World) Sig unit :=
  fun s => (tt, {| event := event s;
                   outside := outside s ++ [(member, instance, actuals)] |}).

Definition closure_call (lambda : unit) (actuals : list Z)
  : M (Lam:=unit) (W:=World) Sig unit :=
  fun s => (tt, s).

Definition walk (t : gmap Z (Handler (Lam:=unit))) : list (Z * Handler) :=
  map_to_list t.

Definition fresh : Machine (Lam:=unit) (W:=World) Sig :=
  {| event := @mkEvent unit unit Sig ∅ I; outside := [] |}.

Definition fire := fire Sig member_call closure_call walk.

(** What the member bodies above add to the world when the entries [l]
    are called in this order with the arguments [e]: one record per bind
    expression, none for a closure. *)
Definition recorded (l : list (Z * Handler (Lam:=unit))) (e : list Z) : World :=
  flat_map (fun p => match snd p with
                     | BindExpr member instance placeholders =>
                         [(member, instance, forwarded placeholders e)]
                     | Closure _ => []
                     end) l.

Definition run := run Sig member_call closure_call walk.

End Demo.

(** ** example.cpp: a widget that publishes and a consumer that listens *)

(** struct WidgetEventArgs *)
Record WidgetEventArgs : Type := mkWidgetEventArgs {
  reversedString : string
}.

Module ExampleCpp.

(** The parameter pack of [Event<WidgetEventArgs>]. *)
Inductive TypeName : Set := T_WidgetEventArgs.

Definition Sig : list TypeName := [T_WidgetEventArgs].

(** The one lambda expression of the program, the one in [Consumer()]. *)
Inductive Lambda : Set := from_lambda.

(** Outside the event lives [std::cout], by the characters written. *)
Definition Cout : Type := string.

#[local] Existing Instances M_ret M_bind.

Abbreviation Step A := (M (Lam:=Lambda) (W:=Cout) Sig A).

(** std::cout << text *)
Definition cout_write (text : string) : Step unit :=
  fun s => (tt, {| event := event s; outside := outside s +:+ text |}).

Definition endl : string := String (Ascii.ascii_of_nat 10) EmptyString.

Definition seq_ (c1 c2 : Step unit) : Step unit :=
  fun s => c2 (snd (c1 s)).

(** void Consumer::_onStringReversed1(WidgetEventArgs e) *)
Definition _onStringReversed1 (e : WidgetEventArgs) : Step unit :=
  seq_ (cout_write (reversedString e)) (seq_ (cout_write "1") (cout_write endl)).

(** void Consumer::_onStringReversed2(WidgetEventArgs e) *)
Definition _onStringReversed2 (e : WidgetEventArgs) : Step unit :=
  seq_ (cout_write (reversedString e)) (seq_ (cout_write "2") (cout_write endl)).

(** [](auto e) { std::cout << e.reversedString << " from lambda\n"; } *)
Definition lambda_body (e : WidgetEventArgs) : Step unit :=
  seq_ (cout_write (reversedString e)) (cout_write (" from lambda" +:+ endl)).

(** Where things are in one run: the address of the [Consumer] object, the
    words of the two pointers to member, the address of the parameter of
    [operator+=] and the word its union gives back for the literal 0. *)
Record Layout : Type := mkLayout {
  this : Z;
  ptr_onStringReversed1 : Z;
  ptr_onStringReversed2 : Z;
  lambda_slot : Z;
  zero_word : Z
}.

(** [(instance->*member)(e)]: the pointer to member picks the body. *)
Definition member_call (L : Layout) (member instance : Z)
    (actuals : list WidgetEventArgs) : Step unit :=
  match actuals with
  | [e] =>
      if decide (member = ptr_onStringReversed1 L) then _onStringReversed1 e
      else if decide (member = ptr_onStringReversed2 L) then _onStringReversed2 e
      else mret tt
  | _ => mret tt
  end.

Definition closure_call (lambda : Lambda) (actuals : list WidgetEventArgs)
  : Step unit :=
  match actuals with
  | [e] => match lambda with from_lambda => lambda_body e end
  | _ => mret tt
  end.

Section Program.

Variable L : Layout.
Variable walk : gmap Z (@Handler Lambda) -> list (Z * @Handler Lambda).

(** void Widget::reverseString(std::string s): fires [stringReversed]
    once through [fire] and once through [operator()]. *)
Definition reverseString (s : string) : Step (list Invocation) :=
  let reversedS := String.rev s in
  j1 ← fire Sig (member_call L) closure_call walk [mkWidgetEventArgs reversedS];
  j2 ← operator_call Sig (member_call L) closure_call walk
         [mkWidgetEventArgs reversedS];
  mret (j1 ++ j2).

(** Consumer::Consumer() *)
Definition Consumer_ctor : Step (list Invocation) :=
  _ ← bind Sig Unary (ptr_onStringReversed1 L) (this L) DEFAULT;
  _ ← bind Sig Unary (ptr_onStringReversed2 L) (this L) DEFAULT;
  _ ← bind Sig Unary (ptr_onStringReversed2 L) (this L) ONLY_UNIQUE;
  _ ← unbind Sig Unary (ptr_onStringReversed2 L) (this L);
  _ ← operator_plus_eq Sig (lambda_slot L) (zero_word L) (Closure from_lambda);
  reverseString "Hello".

(** The machine [main] starts from: the widget's event has no subscriber
    and nothing was printed. *)
Definition start : Machine (Lam:=Lambda) (W:=Cout) Sig :=
  {| event := @mkEvent TypeName Lambda Sig ∅ I; outside := "" |}.

(** int main(): what is on [std::cout] when it returns, and its value. *)
Definition main : Cout * Z :=
  (outside (exec Consumer_ctor start), 0).

End Program.

(** The text a call of handler [h] with [e] puts on [std::cout], read off
    a run of the call on the start machine, and the text of one pass over
    the entries [l]. *)
Definition printed (L : Layout) (h : @Handler Lambda) (e : WidgetEventArgs)
  : string :=
  outside (exec (call Sig (member_call L) closure_call h [e]) start).

Definition pass (L : Layout) (l : list (Z * @Handler Lambda))
    (e : WidgetEventArgs) : string :=
  foldr (fun p text => printed L (snd p) e +:+ text) "" l.

(** The two lines the program can print. *)
Definition line_handler1 : string := "olleH1" +:+ endl.
Definition line_lambda : string := "olleH from lambda" +:+ endl.

End ExampleCpp.

(** * Properties *)

(** ** Identity derivation *)

Lemma wrap64_range z : 0 <= wrap64 z < 2 ^ 64.
Proof. unfold wrap64, u64_modulus. apply Z.mod_pos_bound. lia. Qed.

Lemma identify_unfold r m : _identify r m = (r * 10 + m) mod 2 ^ 64.
Proof.
  unfold _identify, u64_add, u64_mul, AddressCast, wrap64, u64_modulus.
  rewrite Zplus_mod_idemp_l, Zplus_mod_idemp_r.
  rewrite <- (Zplus_mod_idemp_l (r mod 2 ^ 64 * 10)).
  rewrite Zmult_mod_idemp_l.
  now rewrite Zplus_mod_idemp_l.
Qed.

(** C4. The identity of a (receiver, member) pair is the receiver's
    address word times ten plus the member's address word, reduced modulo
    2^64; it is a 64-bit value and depends on nothing else. *)
Theorem identify_is_scaled_sum (receiver member : Z) :
  _identify receiver member = (receiver * 10 + member) mod 2 ^ 64
  /\ 0 <= _identify receiver member < 2 ^ 64.
Proof.
  split; [apply identify_unfold|].
  rewrite identify_unfold. apply Z.mod_pos_bound. lia.
Qed.



(** ** The table operations *)

Ltac fold_exec :=
  repeat match goal with
         | |- context [snd (?c ?s)] => change (snd (c s)) with (exec c s)
         end.

Section TableFacts.

Context {Ty Lam W : Type} (Args : list Ty).

Implicit Types (s : Machine (Lam:=Lam) (W:=W) Args).
Implicit Types (t : gmap Z (@Handler Lam)) (h : @Handler Lam) (a : Z).

Lemma event_eq (ev1 ev2 : @Event Ty Lam Args) :
  subscribers ev1 = subscribers ev2 -> ev1 = ev2.
Proof.
  destruct ev1 as [t1 p1], ev2 as [t2 p2]. simpl. intros ->.
  f_equal. apply proof_irrel.
Qed.

Lemma machine_eq s1 s2 :
  subscribers (event s1) = subscribers (event s2) ->
  outside s1 = outside s2 -> s1 = s2.
Proof.
  destruct s1 as [ev1 w1], s2 as [ev2 w2]. simpl. intros Ht ->.
  f_equal. now apply event_eq.
Qed.

Lemma umap_insert_lookup a h t : is_Some (umap.insert a h t !! a).
Proof.
  unfold umap.insert. destruct (t !! a) eqn:E.
  - rewrite E. eauto.
  - rewrite lookup_insert_eq. eauto.
Qed.

Lemma umap_insert_present a h h0 t : t !! a = Some h0 -> umap.insert a h t = t.
Proof. unfold umap.insert. now intros ->. Qed.

Lemma umap_insert_absent a h t : t !! a = None -> umap.insert a h t = <[a:=h]> t.
Proof. unfold umap.insert. now intros ->. Qed.

Lemma umap_insert_other a b h t : a <> b -> umap.insert a h t !! b = t !! b.
Proof.
  intros Hne. unfold umap.insert. destruct (t !! a); [reflexivity|].
  now apply lookup_insert_ne.
Qed.

Lemma umap_insert_idem a h h' t :
  umap.insert a h' (umap.insert a h t) = umap.insert a h t.
Proof.
  destruct (umap_insert_lookup a h t) as [h0 E].
  eapply umap_insert_present, E.
Qed.

Lemma hasSubscriber_eq a s :
  hasSubscriber Args a s = (bool_decide (subscribers (event s) !! a <> None), s).
Proof. reflexivity. Qed.

Lemma addToList_table a h flag s :
  subscribers (event (exec (_addToList Args a h flag) s))
  = umap.insert a h (subscribers (event s)).
Proof.
  unfold exec, _addToList. destruct flag; simpl; [reflexivity|].
  unfold mbind, M_bind, hasSubscriber, get_subscribers, umap.find. simpl.
  destruct (subscribers (event s) !! a) as [h0|] eqn:E.
  - rewrite bool_decide_eq_true_2 by congruence. simpl.
    symmetry. eapply umap_insert_present, E.
  - rewrite bool_decide_eq_false_2 by congruence. reflexivity.
Qed.

Lemma addToList_outside a h flag s :
  outside (exec (_addToList Args a h flag) s) = outside s.
Proof.
  unfold exec, _addToList. destruct flag; simpl; [reflexivity|].
  unfold mbind, M_bind, hasSubscriber, get_subscribers, umap.find. simpl.
  destruct (bool_decide _); reflexivity.
Qed.

Lemma removeFromList_table a s :
  subscribers (event (exec (_removeFromList Args a) s))
  = delete a (subscribers (event s)).
Proof.
  unfold exec, _removeFromList, mbind, M_bind, get_subscribers, umap.find.
  simpl. destruct (subscribers (event s) !! a) eqn:E; simpl.
  - reflexivity.
  - symmetry. now apply delete_id.
Qed.

Lemma removeFromList_outside a s :
  outside (exec (_removeFromList Args a) s) = outside s.
Proof.
  unfold exec, _removeFromList, mbind, M_bind, get_subscribers, umap.find.
  simpl. destruct (subscribers (event s) !! a); reflexivity.
Qed.

Lemma bind_unfold k member instance flag s :
  bind Args k member instance flag s
  = _addToList Args (_identify instance member)
               (bound_handler k member instance) flag s.
Proof. destruct k; reflexivity. Qed.

Lemma unbind_unfold k member instance s :
  unbind Args k member instance s
  = _removeFromList Args (_identify instance member) s.
Proof. destruct k; reflexivity. Qed.

End TableFacts.

(** ** Registration, removal and the membership query *)

Section Registration.

Context {Ty Lam W : Type} (Args : list Ty).

Implicit Types (s : Machine (Lam:=Lam) (W:=W) Args).
Implicit Types (h : @Handler Lam) (a member instance : Z).

Lemma addToList_present a h h0 flag s :
  subscribers (event s) !! a = Some h0 ->
  _addToList Args a h flag s = (tt, s).
Proof.
  intros E.
  rewrite (surjective_pairing (_addToList Args a h flag s)).
  f_equal; [now destruct (fst _)|].
  fold_exec. apply machine_eq.
  - rewrite (addToList_table Args a h flag s). eapply umap_insert_present, E.
  - apply (addToList_outside Args a h flag s).
Qed.

Lemma removeFromList_absent a s :
  subscribers (event s) !! a = None -> _removeFromList Args a s = (tt, s).
Proof.
  intros E. unfold _removeFromList, mbind, M_bind, get_subscribers, umap.find.
  simpl. now rewrite E.
Qed.

Lemma hasSubscriber_true a s :
  result (hasSubscriber Args a) s = true <-> is_Some (subscribers (event s) !! a).
Proof.
  unfold result. rewrite hasSubscriber_eq. simpl.
  rewrite bool_decide_eq_true. apply not_eq_None_Some.
Qed.

Lemma hasSubscriber_false a s :
  result (hasSubscriber Args a) s = false <-> subscribers (event s) !! a = None.
Proof.
  unfold result. rewrite hasSubscriber_eq. simpl.
  rewrite bool_decide_eq_false.
  destruct (subscribers (event s) !! a); naive_solver.
Qed.

(** C3. Registering under [DEFAULT] and under [ONLY_UNIQUE] is one and the
    same computation, for [_addToList] and for every [bind] overload; under
    either flag the entry kept for the identity is the one already there,
    if any, and the new handler otherwise. *)
Theorem flags_agree s a h :
  _addToList Args a h DEFAULT s = _addToList Args a h ONLY_UNIQUE s
  /\ (forall k member instance,
         bind Args k member instance DEFAULT s
         = bind Args k member instance ONLY_UNIQUE s)
  /\ (forall flag,
         subscribers (event (exec (_addToList Args a h flag) s)) !! a
         = Some (default h (subscribers (event s) !! a))).
Proof.
  assert (Hflags : forall a' h',
    _addToList Args a' h' DEFAULT s = _addToList Args a' h' ONLY_UNIQUE s).
  { intros a' h'.
    rewrite (surjective_pairing (_addToList Args a' h' DEFAULT s)).
    rewrite (surjective_pairing (_addToList Args a' h' ONLY_UNIQUE s)).
    f_equal; [now do 2 destruct (fst _)|].
    fold_exec. apply machine_eq.
    - now rewrite (addToList_table Args a' h' DEFAULT s),
                  (addToList_table Args a' h' ONLY_UNIQUE s).
    - now rewrite (addToList_outside Args a' h' DEFAULT s),
                  (addToList_outside Args a' h' ONLY_UNIQUE s). }
  split; [apply Hflags|]. split.
  - intros k member instance. rewrite !bind_unfold. apply Hflags.
  - intros flag. rewrite addToList_table.
    destruct (subscribers (event s) !! a) as [h0|] eqn:E; simpl.
    + now rewrite (umap_insert_present a h h0).
    + rewrite umap_insert_absent by assumption. apply lookup_insert_eq.
Qed.

(** C6. [unbind] of a pair whose identity is not in the table returns
    normally and leaves the whole machine, hence the table and its size,
    as it was. *)
Theorem unbind_absent_is_noop s k member instance :
  result (hasSubscriber Args (_identify instance member)) s = false ->
  unbind Args k member instance s = (tt, s)
  /\ size (subscribers (event (exec (unbind Args k member instance) s)))
     = size (subscribers (event s)).
Proof.
  intros Habs. apply hasSubscriber_false in Habs.
  assert (E : unbind Args k member instance s = (tt, s)).
  { rewrite unbind_unfold. now apply removeFromList_absent. }
  split; [exact E|]. unfold exec. now rewrite E.
Qed.

(** C7. [hasSubscriber] answers true right after a registration of the
    identity (through [_addToList], any [bind] overload, or [operator+=])
    and false right after an [unbind] of it; asking leaves the machine
    untouched. *)
Theorem hasSubscriber_follows_table s :
  (forall a h flag,
      result (hasSubscriber Args a) (exec (_addToList Args a h flag) s) = true)
  /\ (forall k member instance flag,
         result (hasSubscriber Args (_identify instance member))
                (exec (bind Args k member instance flag) s) = true)
  /\ (forall slot zero_word h,
         result (hasSubscriber Args (_identify slot zero_word))
                (exec (operator_plus_eq Args slot zero_word h) s) = true)
  /\ (forall k member instance,
         result (hasSubscriber Args (_identify instance member))
                (exec (unbind Args k member instance) s) = false)
  /\ (forall a, exec (hasSubscriber Args a) s = s).
Proof.
  assert (Hadd : forall a h flag,
    result (hasSubscriber Args a) (exec (_addToList Args a h flag) s) = true).
  { intros a h flag. apply hasSubscriber_true.
    rewrite addToList_table. apply umap_insert_lookup. }
  split; [exact Hadd|]. split; [|split; [|split]].
  - intros k member instance flag. unfold exec at 1.
    rewrite bind_unfold. apply Hadd.
  - intros slot zero_word h. apply Hadd.
  - intros k member instance. apply hasSubscriber_false.
    unfold exec. rewrite unbind_unfold. fold_exec.
    rewrite (removeFromList_table Args _ s). apply lookup_delete_eq.
  - reflexivity.
Qed.

End Registration.

(** ** Dispatch *)

Section Dispatch.

Context {Ty Value Lam W : Type} (Args : list Ty).

Variable member_call : Z -> Z -> list Value -> M (Lam:=Lam) (W:=W) Args unit.
Variable closure_call : Lam -> list Value -> M (Lam:=Lam) (W:=W) Args unit.
Variable walk : gmap Z (@Handler Lam) -> list (Z * @Handler Lam).

(** Whatever the order, a walk meets every entry of the table once. *)
Hypothesis walk_perm : forall t, walk t ≡ₚ map_to_list t.

Implicit Types (s : Machine (Lam:=Lam) (W:=W) Args).
Implicit Types (t : gmap Z (@Handler Lam)) (h : @Handler Lam) (a : Z).
Implicit Types (e : list Value).

Local Abbreviation call := (call Args member_call closure_call).
Local Abbreviation for_each := (for_each Args member_call closure_call).
Local Abbreviation fire := (fire Args member_call closure_call walk).
Local Abbreviation run := (run Args member_call closure_call walk).
Local Abbreviation perform := (perform Args member_call closure_call walk).

Local Abbreviation keeps_event := (keeps_event Args member_call closure_call).

Lemma walk_lookup t a h : (a, h) ∈ walk t <-> t !! a = Some h.
Proof. rewrite (walk_perm t). apply elem_of_map_to_list. Qed.

Lemma walk_NoDup t : NoDup (fst <$> walk t).
Proof. rewrite (walk_perm t). apply NoDup_fst_map_to_list. Qed.

Lemma walk_empty : walk ∅ = [].
Proof.
  apply Permutation_nil_r. rewrite (walk_perm ∅). now rewrite map_to_list_empty.
Qed.

Lemma at_key_absent {X : Type} a (l : list (Z * X)) :
  a ∉ (fst <$> l) -> at_key a l = [].
Proof.
  unfold at_key. induction l as [|[b x] l IH]; simpl; [reflexivity|].
  rewrite not_elem_of_cons. intros [Hne Hl].
  rewrite filter_cons_False by (simpl; congruence). now apply IH.
Qed.

Lemma at_key_unique {X : Type} a (x : X) (l : list (Z * X)) :
  NoDup (fst <$> l) -> (a, x) ∈ l -> at_key a l = [(a, x)].
Proof.
  unfold at_key. induction l as [|[b y] l IH]; simpl.
  - intros _ Hin. now apply elem_of_nil in Hin.
  - rewrite NoDup_cons. intros [Hb Hnd] Hin.
    apply elem_of_cons in Hin as [Heq|Hin].
    + injection Heq as <- <-.
      rewrite filter_cons_True by reflexivity.
      f_equal. now apply (at_key_absent a l).
    + assert (b <> a).
      { intros ->. apply Hb. apply list_elem_of_fmap. now exists (a, x). }
      rewrite filter_cons_False by (simpl; congruence). now apply IH.
Qed.

Lemma walk_at_key_Some t a h : t !! a = Some h -> at_key a (walk t) = [(a, h)].
Proof.
  intros E. apply at_key_unique; [apply walk_NoDup|]. now apply walk_lookup.
Qed.

Lemma walk_at_key_None t a : t !! a = None -> at_key a (walk t) = [].
Proof.
  intros E. apply at_key_absent. intros Hin.
  apply list_elem_of_fmap in Hin as [[b h] [-> Hin]]. simpl in E.
  apply walk_lookup in Hin. congruence.
Qed.

Lemma for_each_journal l e s :
  result (for_each l e) s = (fun p => (fst p, snd p, e)) <$> l.
Proof.
  revert s. induction l as [|p l IH]; intros s; [reflexivity|].
  unfold result in *. simpl. unfold mbind, M_bind. simpl.
  f_equal. apply IH.
Qed.

Lemma for_each_event l e s :
  (forall p, p ∈ l -> keeps_event (snd p)) ->
  event (exec (for_each l e) s) = event s.
Proof.
  revert s. induction l as [|p l IH]; intros s Hl; [reflexivity|].
  unfold exec in *. simpl. unfold mbind, M_bind. simpl.
  rewrite IH by (intros q Hq; apply Hl; now right).
  apply (Hl p); now left.
Qed.

Lemma fire_journal e s :
  result (fire e) s
  = (fun p => (fst p, snd p, e)) <$> walk (subscribers (event s)).
Proof. apply for_each_journal. Qed.

Lemma fire_event e s :
  (forall a h, subscribers (event s) !! a = Some h -> keeps_event h) ->
  event (exec (fire e) s) = event s.
Proof.
  intros Hk. apply (for_each_event (walk (subscribers (event s))) e s).
  intros [a h] Hin. apply (Hk a). now apply walk_lookup.
Qed.

Lemma journal_at_fmap a e (l : list (Z * @Handler Lam)) :
  journal_at a ((fun p => (fst p, snd p, e)) <$> l)
  = (fun p => (fst p, snd p, e)) <$> at_key a l.
Proof.
  unfold journal_at, at_key. induction l as [|p l IH]; [reflexivity|].
  rewrite fmap_cons. destruct (decide (fst p = a)) as [E|E].
  - rewrite !filter_cons_True by (simpl; exact E). rewrite fmap_cons. now f_equal.
  - rewrite !filter_cons_False by (simpl; exact E). exact IH.
Qed.

(** C8. On an event whose table is empty, [fire] calls nothing and
    returns with the machine as it found it. *)
Theorem fire_empty e s :
  subscribers (event s) = ∅ -> fire e s = ([], s).
Proof.
  intros E.
  change (fire e s) with (for_each (walk (subscribers (event s))) e s).
  rewrite E, walk_empty. reflexivity.
Qed.

(** C10. When none of the registered handlers alters the event object,
    the event object, and with it the subscriber table, is after [fire]
    what it was before. *)
Theorem fire_keeps_table e s :
  (forall a h, subscribers (event s) !! a = Some h -> keeps_event h) ->
  event (exec (fire e) s) = event s
  /\ subscribers (event (exec (fire e) s)) = subscribers (event s).
Proof.
  intros Hk. assert (E := fire_event e s Hk). split; [exact E|now rewrite E].
Qed.

(** C2. Binding a pair twice, under any two flags, is binding it once:
    the second [bind] changes nothing, the table holds one entry under the
    pair's identity, and it is the handler that was there after the first
    [bind]; one [unbind] then leaves no entry under that identity and
    touches nothing else. *)
Theorem bind_twice_then_unbind s k member instance flag1 flag2 :
  let a := _identify instance member in
  let s1 := exec (bind Args k member instance flag1) s in
  let s2 := exec (bind Args k member instance flag2) s1 in
  let s3 := exec (unbind Args k member instance) s2 in
  s2 = s1
  /\ subscribers (event s2) !! a
     = Some (default (bound_handler k member instance)
                     (subscribers (event s) !! a))
  /\ length (at_key a (walk (subscribers (event s2)))) = 1%nat
  /\ subscribers (event s3) = delete a (subscribers (event s1))
  /\ subscribers (event s3) !! a = None
  /\ at_key a (walk (subscribers (event s3))) = []
  /\ result (hasSubscriber Args a) s3 = false.
Proof.
  intros a s1 s2 s3.
  assert (Ht1 : subscribers (event s1)
                = umap.insert a (bound_handler k member instance)
                              (subscribers (event s))).
  { unfold s1, exec. rewrite bind_unfold. fold_exec. apply addToList_table. }
  assert (H1 : subscribers (event s1) !! a
               = Some (default (bound_handler k member instance)
                               (subscribers (event s) !! a))).
  { rewrite Ht1. destruct (subscribers (event s) !! a) as [h0|] eqn:E; simpl.
    - now rewrite (umap_insert_present a _ h0).
    - rewrite umap_insert_absent by assumption. apply lookup_insert_eq. }
  assert (E21 : s2 = s1).
  { unfold s2, exec. rewrite bind_unfold.
    now rewrite (addToList_present Args _ _ _ flag2 s1 H1). }
  assert (Ht3 : subscribers (event s3) = delete a (subscribers (event s1))).
  { unfold s3, exec. rewrite unbind_unfold. fold_exec.
    rewrite (removeFromList_table Args _ s2). now rewrite E21. }
  assert (H3 : subscribers (event s3) !! a = None).
  { rewrite Ht3. apply lookup_delete_eq. }
  split; [exact E21|]. rewrite E21.
  split; [exact H1|].
  split; [now rewrite (walk_at_key_Some _ a _ H1)|].
  split; [exact Ht3|].
  split; [exact H3|].
  split; [now apply walk_at_key_None|].
  now apply hasSubscriber_false.
Qed.

End Dispatch.

(** ** Two receivers, one member *)

Section Independence.

Context {Ty Lam W : Type} (Args : list Ty).

Implicit Types (s : Machine (Lam:=Lam) (W:=W) Args).


End Independence.

(** * The class at work on the concrete program *)

Lemma Demo_walk_perm (t : gmap Z (@Handler unit)) : Demo.walk t ≡ₚ map_to_list t.
Proof. reflexivity. Qed.

Lemma Demo_keeps_event (h : @Handler unit) :
  keeps_event Demo.Sig Demo.member_call Demo.closure_call h.
Proof. intros e s. destruct h; reflexivity. Qed.

(** ** Dispatch seen from outside: member bodies that record their calls *)

Section Recording.

Variable walk : gmap Z (@Handler unit) -> list (Z * @Handler unit).

Hypothesis walk_perm : forall t, walk t ≡ₚ map_to_list t.

Implicit Types (s : Machine (Lam:=unit) (W:=Demo.World) Demo.Sig).
Implicit Types (e : list Z).

Local Abbreviation call := (call Demo.Sig Demo.member_call Demo.closure_call).
Local Abbreviation for_each :=
  (for_each Demo.Sig Demo.member_call Demo.closure_call).
Local Abbreviation fire :=
  (fire Demo.Sig Demo.member_call Demo.closure_call walk).

Lemma for_each_records l e s :
  exec (for_each l e) s
  = {| event := event s; outside := outside s ++ Demo.recorded l e |}.
Proof.
  revert s. induction l as [|[a h] l IH]; intros s.
  - unfold exec. simpl. rewrite app_nil_r. now destruct s.
  - change (exec (for_each ((a, h) :: l) e) s)
      with (exec (for_each l e) (exec (call h e) s)).
    rewrite IH. destruct h as [member instance ph|c]; simpl.
    + now rewrite <- app_assoc.
    + reflexivity.
Qed.

(** X11. Run with member functions that record each call they get. After
    [fire] the record has grown by the calls of one walk over the table:
    for every bind expression in the table one call of its member on its
    receiver with the arguments of [fire] forwarded, nothing from anything
    that is not in the table, and the same calls whatever the order of the
    walk; the event object is left as it was. *)
Theorem fire_records_every_bound_call e s :
  let t := subscribers (event s) in
  exec (fire e) s
  = {| event := event s; outside := outside s ++ Demo.recorded (walk t) e |}
  /\ Demo.recorded (walk t) e ≡ₚ Demo.recorded (map_to_list t) e
  /\ (forall member instance actuals,
         (member, instance, actuals) ∈ Demo.recorded (walk t) e
         <-> exists a placeholders,
               t !! a = Some (BindExpr member instance placeholders)
               /\ actuals = forwarded placeholders e).
Proof.
  intros t. split; [|split].
  - apply (for_each_records (walk t) e s).
  - unfold Demo.recorded. now rewrite (walk_perm t).
  - intros member instance actuals. unfold Demo.recorded.
    rewrite list_elem_of_In, in_flat_map. split.
    + intros [[a h] [Hin Hrec]]. apply list_elem_of_In in Hin.
      apply (walk_lookup walk walk_perm) in Hin.
      destruct h as [m r ph|c]; simpl in Hrec; [|contradiction].
      destruct Hrec as [Heq|[]]. injection Heq as -> -> <-.
      now exists a, ph.
    + intros (a & ph & Ha & ->).
      exists (a, BindExpr member instance ph). split.
      * apply list_elem_of_In. now apply (walk_lookup walk walk_perm).
      * simpl. now left.
Qed.

End Recording.

(** C1. The code at an input where it misses the claim. Two objects eight
    bytes apart and two member functions eighty bytes apart share an
    identity, against the word of [_identify] that the identifier is unique:
    the second [bind] is dropped, and [fire] never reaches member 8272 on
    receiver 4096 although it was bound and never unbound; the world of
    member calls holds the call of the first pair only. *)
Lemma collision_drops_binding :
  let s := exec (bind Demo.Sig Unary 8272 4096 DEFAULT)
                (exec (bind Demo.Sig Unary 8192 4104 DEFAULT) Demo.fresh) in
  _identify 4096 8272 = _identify 4104 8192
  /\ result (Demo.fire [7]) s = [(49232, BindExpr 8192 4104 [1%nat], [7])]
  /\ journal_at (_identify 4096 8272) (result (Demo.fire [7]) s)
     <> [(_identify 4096 8272, bound_handler Unary 8272 4096, [7])]
  /\ outside (exec (Demo.fire [7]) s) = [(8192, 4104, [7])].
Proof.
  vm_compute. repeat split; try reflexivity. intros H. discriminate H.
Qed.

Lemma bind_twice_then_unbind_witness :
  let s1 := exec (bind Demo.Sig Unary 8192 4104 DEFAULT) Demo.fresh in
  let s2 := exec (bind Demo.Sig Unary 8192 4104 ONLY_UNIQUE) s1 in
  let s3 := exec (unbind Demo.Sig Unary 8192 4104) s2 in
  s2 = s1
  /\ subscribers (event s2) !! 49232 = Some (bound_handler Unary 8192 4104)
  /\ length (at_key 49232 (Demo.walk (subscribers (event s2)))) = 1%nat
  /\ subscribers (event s3) = delete 49232 (subscribers (event s1))
  /\ subscribers (event s3) !! 49232 = None
  /\ at_key 49232 (Demo.walk (subscribers (event s3))) = []
  /\ result (hasSubscriber Demo.Sig 49232) s3 = false.
Proof.
  exact (bind_twice_then_unbind Demo.Sig Demo.walk Demo_walk_perm Demo.fresh
           Unary 8192 4104 DEFAULT ONLY_UNIQUE).
Defined.

Lemma unbind_absent_is_noop_witness :
  unbind Demo.Sig Unary 8192 4104 Demo.fresh = (tt, Demo.fresh)
  /\ size (subscribers (event (exec (unbind Demo.Sig Unary 8192 4104) Demo.fresh)))
     = size (subscribers (event Demo.fresh)).
Proof.
  apply (unbind_absent_is_noop Demo.Sig Demo.fresh Unary 8192 4104).
  reflexivity.
Defined.

Lemma fire_empty_witness : Demo.fire [7] Demo.fresh = ([], Demo.fresh).
Proof.
  apply (fire_empty Demo.Sig Demo.member_call Demo.closure_call Demo.walk
           Demo_walk_perm [7] Demo.fresh).
  reflexivity.
Defined.

Lemma fire_keeps_table_witness :
  let s := exec (bind Demo.Sig Unary 8192 4104 DEFAULT) Demo.fresh in
  event (exec (Demo.fire [7]) s) = event s
  /\ subscribers (event (exec (Demo.fire [7]) s)) = subscribers (event s).
Proof.
  intros s.
  apply (fire_keeps_table Demo.Sig Demo.member_call Demo.closure_call Demo.walk
           Demo_walk_perm [7] s).
  intros a h _. apply Demo_keeps_event.
Defined.


(** Outside the object addresses: two pointer values 2^63 apart get one
    identity for the same member, so the bound on the addresses in
    [distinct_receivers_two_subscriptions] cannot be dropped. *)
Lemma far_pointers_share_identity :
  let r1 := 4096 in
  let r2 := 4096 + 2 ^ 63 in
  r1 <> r2 /\ ~ object_address r2 /\ _identify r1 8192 = _identify r2 8192.
Proof.
  vm_compute. repeat split; try congruence. intros [_ H]. discriminate H.
Qed.

(** The constructor of [Consumer] in example.cpp, followed by
    [reverseString], which fires once through [fire] and once through
    [operator()]: handler 2 is bound, bound again under [ONLY_UNIQUE] and
    unbound, so only handler 1 (and the lambda, which leaves no trace in
    the world of member calls) runs, once per firing. *)
Example consumer_scenario :
  let this := 4104 in
  let _onStringReversed1 := 8192 in
  let _onStringReversed2 := 8272 in
  let s := exec (Demo.run [DoBind Unary _onStringReversed1 this DEFAULT;
                           DoBind Unary _onStringReversed2 this DEFAULT;
                           DoBind Unary _onStringReversed2 this ONLY_UNIQUE;
                           DoUnbind Unary _onStringReversed2 this;
                           DoSubscribe 7000 0 (Closure tt)])
                Demo.fresh in
  size (subscribers (event s)) = 2%nat
  /\ length (result (Demo.fire [5]) s) = 2%nat
  /\ outside (exec (operator_call Demo.Sig Demo.member_call Demo.closure_call
                                  Demo.walk [5])
                   (exec (Demo.fire [5]) s))
     = [(_onStringReversed1, this, [5]); (_onStringReversed1, this, [5])].
Proof. vm_compute. repeat split; reflexivity. Qed.

(** * Further properties of the class *)

(** ** More on the identity *)

Lemma identify_diff_divides r1 m1 r2 m2 :
  _identify r1 m1 = _identify r2 m2 <->
  (2 ^ 64 | (r1 * 10 + m1) - (r2 * 10 + m2)).
Proof.
  rewrite !identify_unfold. split.
  - intros H. apply Z.mod_divide; [lia|].
    rewrite Zminus_mod, H, Z.sub_diag. reflexivity.
  - intros [q Hq].
    replace (r1 * 10 + m1) with ((r2 * 10 + m2) + q * 2 ^ 64) by lia.
    apply Z_mod_plus_full.
Qed.

Lemma identify_same_receiver_words r m1 m2 :
  _identify r m1 = _identify r m2 -> m1 mod 2 ^ 64 = m2 mod 2 ^ 64.
Proof.
  rewrite identify_diff_divides.
  replace (r * 10 + m1 - (r * 10 + m2)) with (m1 - m2) by lia.
  intros [q Hq]. replace m1 with (m2 + q * 2 ^ 64) by lia.
  apply Z_mod_plus_full.
Qed.

(** X1. For one receiver, two pointers to member get the same identity exactly
    when the words [AddressCast] reads from them agree as 64-bit values. (Two
    member functions whose pointers begin with the same word, such as two
    virtual functions in the same slot, therefore do share an identity.) *)
Theorem identify_same_receiver (receiver m1 m2 : Z) :
  _identify receiver m1 = _identify receiver m2
  <-> m1 mod 2 ^ 64 = m2 mod 2 ^ 64.
Proof.
  split; [apply identify_same_receiver_words|].
  intros H. apply identify_diff_divides.
  replace (receiver * 10 + m1 - (receiver * 10 + m2)) with (m1 - m2) by lia.
  apply Z.mod_divide; [lia|].
  rewrite Zminus_mod, H, Z.sub_diag. reflexivity.
Qed.

(** X2. Moving the receiver by [d] bytes is to the identity what moving the
    member by [10 * d] bytes is: such pairs always share an identity. *)
Theorem identify_shift (receiver member d : Z) :
  _identify (receiver + d) member = _identify receiver (member + 10 * d).
Proof. rewrite !identify_unfold. f_equal. lia. Qed.

(** ** Bookkeeping of the table *)

Section Bookkeeping.

Context {Ty Lam W : Type} (Args : list Ty).

Implicit Types (s : Machine (Lam:=Lam) (W:=W) Args).
Implicit Types (t : gmap Z (@Handler Lam)) (h : @Handler Lam) (a : Z).

Lemma umap_insert_subseteq a h t : t ⊆ umap.insert a h t.
Proof.
  unfold umap.insert. destruct (t !! a) eqn:E; [reflexivity|].
  now apply insert_subseteq.
Qed.

Lemma umap_insert_dom a h t : dom (umap.insert a h t) = {[a]} ∪ dom t.
Proof.
  unfold umap.insert. destruct (t !! a) eqn:E.
  - assert (Ha : a ∈ dom t) by (apply elem_of_dom; eauto).
    apply set_eq. intros b. rewrite elem_of_union, elem_of_singleton.
    split; [now right|]. now intros [->|Hb].
  - apply dom_insert_L.
Qed.

Lemma umap_insert_size a h t :
  size (umap.insert a h t)
  = if bool_decide (t !! a <> None) then size t else S (size t).
Proof.
  unfold umap.insert. destruct (t !! a) eqn:E.
  - rewrite bool_decide_eq_true_2 by congruence. reflexivity.
  - rewrite bool_decide_eq_false_2 by congruence. now apply map_size_insert_None.
Qed.

Lemma umap_insert_lookup_full a b h t :
  umap.insert a h t !! b
  = if decide (a = b) then Some (default h (t !! a)) else t !! b.
Proof.
  destruct (decide (a = b)) as [<-|Hne].
  - destruct (t !! a) as [h0|] eqn:E; simpl.
    + now rewrite (umap_insert_present a h h0).
    + rewrite umap_insert_absent by assumption. apply lookup_insert_eq.
  - now apply umap_insert_other.
Qed.

Lemma umap_insert_comm a1 a2 h1 h2 t :
  a1 <> a2 ->
  umap.insert a2 h2 (umap.insert a1 h1 t) = umap.insert a1 h1 (umap.insert a2 h2 t).
Proof.
  intros Hne. apply map_eq. intros b.
  rewrite !umap_insert_lookup_full.
  repeat case_decide; subst; try congruence; reflexivity.
Qed.

Lemma exec_bind_table k member instance flag s :
  subscribers (event (exec (bind Args k member instance flag) s))
  = umap.insert (_identify instance member) (bound_handler k member instance)
                (subscribers (event s)).
Proof. unfold exec. rewrite bind_unfold. fold_exec. apply addToList_table. Qed.

Lemma exec_bind_outside k member instance flag s :
  outside (exec (bind Args k member instance flag) s) = outside s.
Proof. unfold exec. rewrite bind_unfold. fold_exec. apply addToList_outside. Qed.

Lemma exec_unbind_table k member instance s :
  subscribers (event (exec (unbind Args k member instance) s))
  = delete (_identify instance member) (subscribers (event s)).
Proof. unfold exec. rewrite unbind_unfold. fold_exec. apply removeFromList_table. Qed.

Lemma exec_unbind_outside k member instance s :
  outside (exec (unbind Args k member instance) s) = outside s.
Proof. unfold exec. rewrite unbind_unfold. fold_exec. apply removeFromList_outside. Qed.

(** X3. A registration grows the table by one entry when [hasSubscriber] said
    no for the identity, and by none when it said yes; this holds under both
    flags, for [_addToList] and through every [bind] overload. *)
Theorem registration_size s :
  (forall a h flag,
      size (subscribers (event (exec (_addToList Args a h flag) s)))
      = if result (hasSubscriber Args a) s then size (subscribers (event s))
        else S (size (subscribers (event s))))
  /\ (forall k member instance flag,
         size (subscribers (event (exec (bind Args k member instance flag) s)))
         = if result (hasSubscriber Args (_identify instance member)) s
           then size (subscribers (event s))
           else S (size (subscribers (event s)))).
Proof.
  split.
  - intros a h flag. rewrite addToList_table. apply umap_insert_size.
  - intros k member instance flag. rewrite exec_bind_table. apply umap_insert_size.
Qed.

(** X4. A registration never takes away or replaces an entry: the old table is
    contained in the new one, the keys gain exactly the identity, and
    nothing outside the event changes. *)
Theorem registration_only_adds s :
  (forall a h flag,
      let s' := exec (_addToList Args a h flag) s in
      subscribers (event s) ⊆ subscribers (event s')
      /\ dom (subscribers (event s')) = {[a]} ∪ dom (subscribers (event s))
      /\ outside s' = outside s)
  /\ (forall k member instance flag,
         let s' := exec (bind Args k member instance flag) s in
         subscribers (event s) ⊆ subscribers (event s')
         /\ dom (subscribers (event s'))
            = {[_identify instance member]} ∪ dom (subscribers (event s))
         /\ outside s' = outside s)
  /\ (forall slot zero_word lambda,
         let s' := exec (operator_plus_eq Args slot zero_word lambda) s in
         subscribers (event s) ⊆ subscribers (event s')
         /\ dom (subscribers (event s'))
            = {[_identify slot zero_word]} ∪ dom (subscribers (event s))
         /\ outside s' = outside s).
Proof.
  assert (Hadd : forall a h flag,
    let s' := exec (_addToList Args a h flag) s in
    subscribers (event s) ⊆ subscribers (event s')
    /\ dom (subscribers (event s')) = {[a]} ∪ dom (subscribers (event s))
    /\ outside s' = outside s).
  { intros a h flag s'. unfold s'. rewrite addToList_table, addToList_outside.
    split; [apply umap_insert_subseteq|]. split; [apply umap_insert_dom|reflexivity]. }
  split; [exact Hadd|]. split.
  - intros k member instance flag s'. unfold s'.
    rewrite exec_bind_table, exec_bind_outside.
    split; [apply umap_insert_subseteq|]. split; [apply umap_insert_dom|reflexivity].
  - intros slot zero_word lambda. apply Hadd.
Qed.

(** X5. [unbind] deletes the key of the pair's identity and nothing else: the
    table loses one entry when [hasSubscriber] said yes and none when it said
    no, and nothing outside the event changes. *)
Theorem unbind_removes_one_key s k member instance :
  let a := _identify instance member in
  let s' := exec (unbind Args k member instance) s in
  subscribers (event s') = delete a (subscribers (event s))
  /\ size (subscribers (event s))
     = (if result (hasSubscriber Args a) s
        then S (size (subscribers (event s')))
        else size (subscribers (event s')))
  /\ outside s' = outside s.
Proof.
  intros a s'. unfold s'. rewrite exec_unbind_table, exec_unbind_outside.
  split; [reflexivity|]. split; [|reflexivity].
  unfold result. rewrite hasSubscriber_eq. simpl. fold a.
  destruct (subscribers (event s) !! a) as [h0|] eqn:E.
  - rewrite bool_decide_eq_true_2 by congruence.
    rewrite <- (insert_delete_id _ _ _ E) at 1.
    apply map_size_insert_None, lookup_delete_eq.
  - rewrite bool_decide_eq_false_2 by congruence. now rewrite delete_id.
Qed.

(** X6. Binding a pair whose identity is free and unbinding it again gives
    back the table one started from, as a mapping from identities to
    handlers, and leaves everything outside the event as it was. *)
Theorem bind_then_unbind_restores s k member instance flag :
  result (hasSubscriber Args (_identify instance member)) s = false ->
  let s' := exec (unbind Args k member instance)
                 (exec (bind Args k member instance flag) s) in
  subscribers (event s') = subscribers (event s)
  /\ outside s' = outside s.
Proof.
  intros Habs s'. apply hasSubscriber_false in Habs. unfold s'. split.
  - rewrite exec_unbind_table, exec_bind_table.
    rewrite umap_insert_absent by exact Habs.
    now apply delete_insert_id.
  - now rewrite exec_unbind_outside, exec_bind_outside.
Qed.

(** X7. A second [unbind] of the same pair changes nothing. *)
Theorem unbind_twice s k member instance :
  exec (unbind Args k member instance) (exec (unbind Args k member instance) s)
  = exec (unbind Args k member instance) s.
Proof.
  apply machine_eq.
  - rewrite !exec_unbind_table. apply delete_id, lookup_delete_eq.
  - now rewrite !exec_unbind_outside.
Qed.

(** X8. Registrations and removals at different identities do not interfere
    in what the table maps: two binds give the same mapping in either order,
    and so do a bind and an unbind. *)
Theorem different_identities_commute s k1 m1 r1 flag1 k2 m2 r2 flag2 :
  _identify r1 m1 <> _identify r2 m2 ->
  subscribers (event (exec (bind Args k2 m2 r2 flag2)
                           (exec (bind Args k1 m1 r1 flag1) s)))
  = subscribers (event (exec (bind Args k1 m1 r1 flag1)
                             (exec (bind Args k2 m2 r2 flag2) s)))
  /\ subscribers (event (exec (unbind Args k2 m2 r2)
                              (exec (bind Args k1 m1 r1 flag1) s)))
     = subscribers (event (exec (bind Args k1 m1 r1 flag1)
                                (exec (unbind Args k2 m2 r2) s))).
Proof.
  intros Hne. split.
  - rewrite !exec_bind_table. now apply umap_insert_comm.
  - rewrite exec_unbind_table, !exec_bind_table, exec_unbind_table.
    apply map_eq. intros b.
    destruct (decide (b = _identify r2 m2)) as [->|Hb].
    + rewrite lookup_delete_eq, umap_insert_other by exact Hne.
      now rewrite lookup_delete_eq.
    + rewrite lookup_delete_ne by congruence.
      rewrite !umap_insert_lookup_full.
      rewrite !lookup_delete_ne by congruence. reflexivity.
Qed.

(** X9. What a shared identity does: once a pair is bound on a free identity,
    a [bind] of any other pair with the same identity is dropped, and an
    [unbind] of that other pair removes the first pair's subscription: the
    table maps what it mapped before the first bind. *)
Theorem shared_identity_aliases s k member instance flag k' member' instance' flag' :
  _identify instance' member' = _identify instance member ->
  result (hasSubscriber Args (_identify instance member)) s = false ->
  let s1 := exec (bind Args k member instance flag) s in
  exec (bind Args k' member' instance' flag') s1 = s1
  /\ subscribers (event s1) !! _identify instance member
     = Some (bound_handler k member instance)
  /\ result (hasSubscriber Args (_identify instance member))
            (exec (unbind Args k' member' instance') s1) = false
  /\ subscribers (event (exec (unbind Args k' member' instance') s1))
     = subscribers (event s).
Proof.
  intros Hid Habs s1. apply hasSubscriber_false in Habs.
  assert (H1 : subscribers (event s1) !! _identify instance member
               = Some (bound_handler k member instance)).
  { unfold s1. rewrite exec_bind_table, umap_insert_absent by exact Habs.
    apply lookup_insert_eq. }
  assert (Hun : subscribers (event (exec (unbind Args k' member' instance') s1))
                = subscribers (event s)).
  { rewrite exec_unbind_table, Hid. unfold s1.
    rewrite exec_bind_table, umap_insert_absent by exact Habs.
    now apply delete_insert_id. }
  split; [|split; [exact H1|split; [|exact Hun]]].
  - apply machine_eq.
    + rewrite exec_bind_table, Hid. eapply umap_insert_present, H1.
    + now rewrite exec_bind_outside.
  - apply hasSubscriber_false. now rewrite Hun.
Qed.

(** X10. Two [operator+=] calls whose parameter sits in the same slot and reads
    the same word for 0 get one identity: the second handler is dropped. *)
Theorem second_subscription_same_slot s slot zero_word lambda1 lambda2 :
  exec (operator_plus_eq Args slot zero_word lambda2)
       (exec (operator_plus_eq Args slot zero_word lambda1) s)
  = exec (operator_plus_eq Args slot zero_word lambda1) s.
Proof.
  unfold operator_plus_eq. apply machine_eq.
  - rewrite !addToList_table. apply umap_insert_idem.
  - now rewrite !addToList_outside.
Qed.

End Bookkeeping.

(** ** More on dispatch *)

Section Firing.

Context {Ty Value Lam W : Type} (Args : list Ty).

Variable member_call : Z -> Z -> list Value -> M (Lam:=Lam) (W:=W) Args unit.
Variable closure_call : Lam -> list Value -> M (Lam:=Lam) (W:=W) Args unit.
Variable walk : gmap Z (@Handler Lam) -> list (Z * @Handler Lam).

Hypothesis walk_perm : forall t, walk t ≡ₚ map_to_list t.

Implicit Types (s : Machine (Lam:=Lam) (W:=W) Args).
Implicit Types (t : gmap Z (@Handler Lam)) (h : @Handler Lam) (a : Z).
Implicit Types (e : list Value).

Local Abbreviation call := (call Args member_call closure_call).
Local Abbreviation for_each := (for_each Args member_call closure_call).
Local Abbreviation fire := (fire Args member_call closure_call walk).
Local Abbreviation keeps_event := (keeps_event Args member_call closure_call).

(** X15. A handler made by the [bind] overload for [n] parameters hands the
    member the first [n] arguments of the call, whatever else was passed. *)
Theorem bound_handler_forwards_prefix k member instance e :
  (parameters k <= length e)%nat ->
  call (bound_handler k member instance) e
  = member_call member instance (take (parameters k) e).
Proof.
  intros Hlen. unfold bound_handler, std_bind. simpl. f_equal.
  destruct k; simpl in *;
    repeat (destruct e as [|? e]; simpl in Hlen; try lia; try reflexivity).
Qed.

End Firing.

(** * example.cpp *)

Section ExampleProgram.

Variable L : ExampleCpp.Layout.
Variable walk : gmap Z (@Handler ExampleCpp.Lambda)
                -> list (Z * @Handler ExampleCpp.Lambda).

Implicit Types (s : Machine (Lam:=ExampleCpp.Lambda) (W:=ExampleCpp.Cout) ExampleCpp.Sig).
Implicit Types (e : WidgetEventArgs).

Local Abbreviation call :=
  (call ExampleCpp.Sig (ExampleCpp.member_call L) ExampleCpp.closure_call).
Local Abbreviation for_each :=
  (for_each ExampleCpp.Sig (ExampleCpp.member_call L) ExampleCpp.closure_call).
Local Abbreviation fire :=
  (fire ExampleCpp.Sig (ExampleCpp.member_call L) ExampleCpp.closure_call walk).
Local Abbreviation reverseString := (ExampleCpp.reverseString L walk).

Lemma example_keeps_event (h : @Handler ExampleCpp.Lambda) :
  keeps_event ExampleCpp.Sig (ExampleCpp.member_call L) ExampleCpp.closure_call h.
Proof.
  intros args s. destruct h as [member instance ph|[]]; simpl.
  - unfold ExampleCpp.member_call.
    destruct (forwarded ph args) as [|e [|? ?]]; try reflexivity.
    repeat case_decide; reflexivity.
  - destruct args as [|e [|? ?]]; reflexivity.
Qed.

Lemma example_fire_event args s : event (exec (fire args) s) = event s.
Proof.
  apply (for_each_event ExampleCpp.Sig (ExampleCpp.member_call L)
           ExampleCpp.closure_call (walk (subscribers (event s))) args s).
  intros p _. apply example_keeps_event.
Qed.

Lemma call_handler1 instance e s :
  exec (call (bound_handler Unary (ExampleCpp.ptr_onStringReversed1 L) instance) [e]) s
  = {| event := event s;
       outside := ((outside s +:+ reversedString e) +:+ "1") +:+ ExampleCpp.endl |}.
Proof.
  unfold exec, bound_handler, std_bind. simpl. unfold ExampleCpp.member_call.
  rewrite decide_True by reflexivity. reflexivity.
Qed.

Lemma call_lambda e s :
  exec (call (Closure ExampleCpp.from_lambda) [e]) s
  = {| event := event s;
       outside := (outside s +:+ reversedString e)
                  +:+ (" from lambda" +:+ ExampleCpp.endl) |}.
Proof. reflexivity. Qed.

Lemma reverseString_exec l (str : string) s :
  walk (subscribers (event s)) = l ->
  let args := [mkWidgetEventArgs (String.rev str)] in
  exec (reverseString str) s = exec (for_each l args) (exec (for_each l args) s).
Proof.
  intros Hl args.
  change (exec (reverseString str) s)
    with (exec (for_each (walk (subscribers (event (exec (fire args) s)))) args)
               (exec (for_each (walk (subscribers (event s))) args) s)).
  now rewrite example_fire_event, Hl.
Qed.

Lemma append_assoc (a b c : string) : (a +:+ b) +:+ c = a +:+ (b +:+ c).
Proof.
  induction a as [|x a IH]; [reflexivity|].
  change (String x ((a +:+ b) +:+ c) = String x (a +:+ (b +:+ c))).
  f_equal. exact IH.
Qed.

Lemma append_nil_r (a : string) : a +:+ "" = a.
Proof.
  induction a as [|x a IH]; [reflexivity|].
  change (String x (a +:+ "") = String x a). f_equal. exact IH.
Qed.

Lemma call_prints (h : @Handler ExampleCpp.Lambda) e s :
  exec (call h [e]) s
  = {| event := event s; outside := outside s +:+ ExampleCpp.printed L h e |}.
Proof.
  unfold ExampleCpp.printed.
  destruct h as [member instance ph|[]]; simpl.
  - unfold ExampleCpp.member_call.
    destruct (forwarded ph [e]) as [|e' [|? ?]].
    + unfold exec. simpl. rewrite append_nil_r. now destruct s.
    + repeat case_decide; unfold exec; simpl;
        rewrite ?append_assoc, ?append_nil_r; try reflexivity.
      now destruct s.
    + unfold exec. simpl. rewrite append_nil_r. now destruct s.
  - unfold exec. simpl. now rewrite !append_assoc.
Qed.

Lemma for_each_prints l e s :
  exec (for_each l [e]) s
  = {| event := event s; outside := outside s +:+ ExampleCpp.pass L l e |}.
Proof.
  revert s. induction l as [|[a h] l IH]; intros s.
  - unfold exec. simpl. rewrite append_nil_r. now destruct s.
  - change (exec (for_each ((a, h) :: l) [e]) s)
      with (exec (for_each l [e]) (exec (call h [e]) s)).
    rewrite IH, call_prints. simpl. now rewrite append_assoc.
Qed.

Hypothesis walk_perm : forall t, walk t ≡ₚ map_to_list t.

(** X16. [reverseString] puts on [std::cout], twice in a row, the text of one
    pass over the subscribers: what each entry of the table prints for the
    reversed string, one piece per entry, in the order the container walks;
    the event object is left as it was. *)
Theorem reverseString_prints_two_passes (str : string) s :
  let e := mkWidgetEventArgs (String.rev str) in
  let l := walk (subscribers (event s)) in
  exec (reverseString str) s
  = {| event := event s;
       outside := outside s +:+ ExampleCpp.pass L l e +:+ ExampleCpp.pass L l e |}
  /\ (fun p => ExampleCpp.printed L (snd p) e) <$> l
     ≡ₚ (fun p => ExampleCpp.printed L (snd p) e)
          <$> map_to_list (subscribers (event s)).
Proof.
  intros e l. split.
  - rewrite (reverseString_exec l str s eq_refl).
    rewrite !for_each_prints. simpl. now rewrite append_assoc.
  - unfold l. now rewrite (walk_perm (subscribers (event s))).
Qed.

(** X17. What [main] prints. With two different handler functions, handler 2,
    bound twice and unbound once, prints nothing; handler 1 prints its line
    on both firings; the lambda prints its line on both firings too, before
    or after handler 1 as the container walks, unless its identity is the
    one handler 1 has, in which case it was never registered. [main]
    returns 0. *)
Theorem main_output :
  ExampleCpp.ptr_onStringReversed1 L mod 2 ^ 64
  <> ExampleCpp.ptr_onStringReversed2 L mod 2 ^ 64 ->
  let a1 := _identify (ExampleCpp.this L) (ExampleCpp.ptr_onStringReversed1 L) in
  let aL := _identify (ExampleCpp.lambda_slot L) (ExampleCpp.zero_word L) in
  let h1 := ExampleCpp.line_handler1 in
  let lam := ExampleCpp.line_lambda in
  snd (ExampleCpp.main L walk) = 0
  /\ fst (ExampleCpp.main L walk)
     ∈ (if decide (aL = a1) then [h1 +:+ h1]
        else [h1 +:+ lam +:+ h1 +:+ lam; lam +:+ h1 +:+ lam +:+ h1]).
Proof.
  intros Hptr a1 aL h1 lam. split; [reflexivity|].
  set (a2 := _identify (ExampleCpp.this L) (ExampleCpp.ptr_onStringReversed2 L)).
  assert (Hne : a1 <> a2).
  { intros Heq. apply Hptr.
    now apply (identify_same_receiver_words (ExampleCpp.this L)). }
  set (H1 := bound_handler (Lam:=ExampleCpp.Lambda) Unary
               (ExampleCpp.ptr_onStringReversed1 L) (ExampleCpp.this L)).
  set (s5 := exec (operator_plus_eq ExampleCpp.Sig (ExampleCpp.lambda_slot L)
                     (ExampleCpp.zero_word L) (Closure ExampleCpp.from_lambda))
              (exec (unbind ExampleCpp.Sig Unary (ExampleCpp.ptr_onStringReversed2 L)
                            (ExampleCpp.this L))
              (exec (bind ExampleCpp.Sig Unary (ExampleCpp.ptr_onStringReversed2 L)
                          (ExampleCpp.this L) ONLY_UNIQUE)
              (exec (bind ExampleCpp.Sig Unary (ExampleCpp.ptr_onStringReversed2 L)
                          (ExampleCpp.this L) DEFAULT)
              (exec (bind ExampleCpp.Sig Unary (ExampleCpp.ptr_onStringReversed1 L)
                          (ExampleCpp.this L) DEFAULT)
                    (ExampleCpp.start)))))).
  change (fst (ExampleCpp.main L walk))
    with (outside (exec (reverseString "Hello") s5)).
  assert (Hout : outside s5 = "").
  { unfold s5. unfold operator_plus_eq.
    now rewrite addToList_outside, exec_unbind_outside, !exec_bind_outside. }
  assert (Ht : subscribers (event s5)
               = umap.insert aL (Closure ExampleCpp.from_lambda) {[a1 := H1]}).
  { unfold s5, operator_plus_eq.
    rewrite addToList_table, exec_unbind_table, !exec_bind_table.
    fold a1 a2 aL H1. f_equal. simpl.
    rewrite (umap_insert_absent a1 H1 ∅) by apply lookup_empty.
    rewrite insert_empty.
    rewrite umap_insert_idem.
    rewrite umap_insert_absent by (now apply lookup_singleton_ne).
    apply delete_insert_id. now apply lookup_singleton_ne. }
  clearbody s5.
  set (args := [mkWidgetEventArgs (String.rev "Hello")]).
  set (lamH := Closure ExampleCpp.from_lambda : @Handler ExampleCpp.Lambda).
  destruct (decide (aL = a1)) as [Heq|HneL].
  - assert (Hw : walk (subscribers (event s5)) = [(a1, H1)]).
    { rewrite Ht, Heq.
      rewrite (umap_insert_present a1 _ H1) by apply lookup_singleton_eq.
      apply Permutation_singleton_r. rewrite walk_perm.
      now rewrite map_to_list_singleton. }
    rewrite (reverseString_exec _ "Hello" s5 Hw).
    apply list_elem_of_singleton.
    change (outside (exec (call H1 args) (exec (call H1 args) s5)) = h1 +:+ h1).
    unfold H1, args. rewrite !call_handler1. simpl. rewrite Hout. reflexivity.
  - assert (Hw : [(aL, lamH); (a1, H1)] ≡ₚ walk (subscribers (event s5))).
    { rewrite Ht.
      rewrite umap_insert_absent by (now apply lookup_singleton_ne).
      rewrite walk_perm, map_to_list_insert by (now apply lookup_singleton_ne).
      now rewrite map_to_list_singleton. }
    apply Permutation_length_2_inv in Hw as [Hw|Hw];
      rewrite (reverseString_exec _ "Hello" s5 Hw).
    + apply elem_of_cons. right. apply list_elem_of_singleton.
      change (outside (exec (call H1 args) (exec (call lamH args)
                (exec (call H1 args) (exec (call lamH args) s5))))
              = lam +:+ h1 +:+ lam +:+ h1).
      unfold H1, lamH, args. rewrite !call_handler1, !call_lambda.
      simpl. rewrite Hout. reflexivity.
    + apply elem_of_cons. left.
      change (outside (exec (call lamH args) (exec (call H1 args)
                (exec (call lamH args) (exec (call H1 args) s5))))
              = h1 +:+ lam +:+ h1 +:+ lam).
      unfold H1, lamH, args. rewrite !call_handler1, !call_lambda.
      simpl. rewrite Hout. reflexivity.
Qed.

End ExampleProgram.

(** * The further properties at work *)

Lemma bind_then_unbind_restores_witness :
  let s := exec (bind Demo.Sig Unary 8272 4104 DEFAULT) Demo.fresh in
  let s' := exec (unbind Demo.Sig Unary 8192 4104)
                 (exec (bind Demo.Sig Unary 8192 4104 ONLY_UNIQUE) s) in
  subscribers (event s') = subscribers (event s) /\ outside s' = outside s.
Proof.
  intros s.
  apply (bind_then_unbind_restores Demo.Sig s Unary 8192 4104 ONLY_UNIQUE).
  reflexivity.
Defined.

Lemma different_identities_commute_witness :
  subscribers (event (exec (bind Demo.Sig Unary 8272 4104 DEFAULT)
                           (exec (bind Demo.Sig Unary 8192 4104 DEFAULT) Demo.fresh)))
  = subscribers (event (exec (bind Demo.Sig Unary 8192 4104 DEFAULT)
                             (exec (bind Demo.Sig Unary 8272 4104 DEFAULT) Demo.fresh)))
  /\ subscribers (event (exec (unbind Demo.Sig Unary 8272 4104)
                              (exec (bind Demo.Sig Unary 8192 4104 DEFAULT) Demo.fresh)))
     = subscribers (event (exec (bind Demo.Sig Unary 8192 4104 DEFAULT)
                                (exec (unbind Demo.Sig Unary 8272 4104) Demo.fresh))).
Proof.
  apply (different_identities_commute Demo.Sig Demo.fresh
           Unary 8192 4104 DEFAULT Unary 8272 4104 DEFAULT).
  vm_compute. intros H. discriminate H.
Defined.

Lemma shared_identity_aliases_witness :
  let s1 := exec (bind Demo.Sig Unary 8192 4104 DEFAULT) Demo.fresh in
  exec (bind Demo.Sig Unary 8272 4096 DEFAULT) s1 = s1
  /\ subscribers (event s1) !! _identify 4104 8192
     = Some (bound_handler Unary 8192 4104)
  /\ result (hasSubscriber Demo.Sig (_identify 4104 8192))
            (exec (unbind Demo.Sig Unary 8272 4096) s1) = false
  /\ subscribers (event (exec (unbind Demo.Sig Unary 8272 4096) s1))
     = subscribers (event Demo.fresh).
Proof.
  apply (shared_identity_aliases Demo.Sig Demo.fresh
           Unary 8192 4104 DEFAULT Unary 8272 4096 DEFAULT).
  - reflexivity.
  - reflexivity.
Defined.

Lemma fire_records_every_bound_call_witness :
  let s := exec (bind Demo.Sig Unary 8272 4104 DEFAULT)
                (exec (bind Demo.Sig Unary 8192 4104 DEFAULT) Demo.fresh) in
  let t := subscribers (event s) in
  exec (Demo.fire [7]) s
  = {| event := event s; outside := outside s ++ Demo.recorded (Demo.walk t) [7] |}
  /\ Demo.recorded (Demo.walk t) [7] ≡ₚ Demo.recorded (map_to_list t) [7]
  /\ (forall member instance actuals,
         (member, instance, actuals) ∈ Demo.recorded (Demo.walk t) [7]
         <-> exists a placeholders,
               t !! a = Some (BindExpr member instance placeholders)
               /\ actuals = forwarded placeholders [7]).
Proof.
  intros s.
  exact (fire_records_every_bound_call Demo.walk Demo_walk_perm [7] s).
Defined.

Lemma reverseString_prints_two_passes_witness :
  let L := ExampleCpp.mkLayout 4104 8192 8272 7000 0 in
  let s := exec (bind ExampleCpp.Sig Unary 8192 4104 DEFAULT) ExampleCpp.start in
  let e := mkWidgetEventArgs (String.rev "Hello") in
  let l := map_to_list (subscribers (event s)) in
  exec (ExampleCpp.reverseString L map_to_list "Hello") s
  = {| event := event s;
       outside := outside s +:+ ExampleCpp.pass L l e +:+ ExampleCpp.pass L l e |}
  /\ (fun p => ExampleCpp.printed L (snd p) e) <$> l
     ≡ₚ (fun p => ExampleCpp.printed L (snd p) e)
          <$> map_to_list (subscribers (event s)).
Proof.
  intros L s.
  apply (reverseString_prints_two_passes L map_to_list).
  intros t. reflexivity.
Defined.

Lemma bound_handler_forwards_prefix_witness :
  call Demo.Sig Demo.member_call Demo.closure_call
       (bound_handler Unary 8192 4104) [7; 9]
  = Demo.member_call 8192 4104 (take (parameters Unary) [7; 9]).
Proof.
  apply (bound_handler_forwards_prefix Demo.Sig Demo.member_call
           Demo.closure_call Unary 8192 4104 [7; 9]).
  simpl. lia.
Defined.

Lemma main_output_witness :
  let L := ExampleCpp.mkLayout 4104 8192 8272 7000 0 in
  let h1 := ExampleCpp.line_handler1 in
  let lam := ExampleCpp.line_lambda in
  snd (ExampleCpp.main L map_to_list) = 0
  /\ fst (ExampleCpp.main L map_to_list)
     ∈ (if decide (_identify 7000 0 = _identify 4104 8192) then [h1 +:+ h1]
        else [h1 +:+ lam +:+ h1 +:+ lam; lam +:+ h1 +:+ lam +:+ h1]).
Proof.
  intros L h1 lam.
  apply (main_output L map_to_list).
  - intros t. reflexivity.
  - vm_compute. intros H. discriminate H.
Defined.
